(** * A shallow embedding of package [waitgroup] (src/waitgroup.go).

    [WaitGroup] wraps a [sync.WaitGroup] counter and a [calls] map from
    call-site keys to outstanding counts. [Add], [Done] and [LogNotDone]
    are modelled as functions over the state of one [WaitGroup] together
    with the global logger [Opts.Logger]; a Go panic aborts the operation.
    [Wait] runs a watcher goroutine next to [sync.WaitGroup.Wait]; it is
    modelled separately as a small interleaving step function (module
    [Watcher]). *)

From Stdlib Require Import ZArith Lia Ascii.
From stdpp Require Import base gmap list strings pretty.

Open Scope Z_scope.

(** ** Go integers *)

(** [int] is 64 bits wide; [+=] and [--] wrap around. *)
Definition int_min : Z := - 2 ^ 63.
Definition int_max : Z := 2 ^ 63 - 1.

Definition wrap64 (z : Z) : Z := Z.modulo (z + 2 ^ 63) (2 ^ 64) - 2 ^ 63.

Definition in_int (z : Z) : Prop := int_min <= z <= int_max.

(** [int32], the width of [sync.WaitGroup]'s counter. *)
Definition int32_max : Z := 2 ^ 31 - 1.

Definition wrap32 (z : Z) : Z := Z.modulo (z + 2 ^ 31) (2 ^ 32) - 2 ^ 31.

Definition in_int32 (z : Z) : Prop := - 2 ^ 31 <= z <= int32_max.

(** ** State *)

(** [type WaitGroup struct { wg *sync.WaitGroup; calls map[string]int; mu }]
    The mutex only serialises the operations below, each of which is
    modelled as one atomic step. [sync.WaitGroup] is modelled by its
    [int32] counter, see [sync_Add]. *)
Record WaitGroup := mkWaitGroup {
  wg : Z;
  calls : gmap string Z
}.

(** The world an operation sees: the [WaitGroup] and everything written
    so far to [Opts.Logger] (one string per [Opts.Log] call). *)
Record world := mkWorld {
  w : WaitGroup;
  logger : list string
}.

(** The outcome of an operation: a Go panic, or a result and a new world. *)
Inductive outcome (A : Type) :=
| Panic (msg : string)
| Ok (a : A) (s : world).
Arguments Panic {A} _.
Arguments Ok {A} _ _.

Definition M (A : Type) := world -> outcome A.

Definition ret {A} (a : A) : M A := fun s => Ok a s.
Definition bind {A B} (m : M A) (k : A -> M B) : M B :=
  fun s => match m s with Panic e => Panic e | Ok a s' => k a s' end.
Definition get : M world := fun s => Ok s s.
Definition put (s : world) : M unit := fun _ => Ok tt s.
Definition panic {A} (msg : string) : M A := fun _ => Panic msg.

Notation "x <- m ;; k" := (bind m (fun x => k))
  (at level 100, m at next level, right associativity).
Notation "m ;;; k" := (bind m (fun _ => k))
  (at level 100, right associativity).

Definition set_wg (n : Z) : M unit :=
  s <- get ;; put (mkWorld (mkWaitGroup n (calls (w s))) (logger s)).
Definition set_calls (c : gmap string Z) : M unit :=
  s <- get ;; put (mkWorld (mkWaitGroup (wg (w s)) c) (logger s)).

(** [New()] *)
Definition New : WaitGroup := mkWaitGroup 0 ∅.

(** ** [sync.WaitGroup] *)

(** [func (wg *WaitGroup) Add(delta int)]:
    [state := wg.state.Add(uint64(delta) << 32); v := int32(state >> 32)].
    The counter is the high half of a 64-bit word, so it becomes
    [counter + delta] modulo 2^32, read as an [int32]; [Add] panics with
    this message when that is negative. (The check
    [w != 0 && delta > 0 && v == int32(delta)] concerns waiters, and no
    [Wait] runs in this sequential model; waking waiters is modelled in
    [Watcher].) *)
Definition negative_counter : string := "sync: negative WaitGroup counter".

(** The new counter, or [None] for the panic. *)
Definition counter_add (c delta : Z) : option Z :=
  let v := wrap32 (c + delta) in
  if decide (v < 0) then None else Some v.

Definition sync_Add (delta : Z) : M unit :=
  s <- get ;;
  match counter_add (wg (w s)) delta with
  | None => panic negative_counter
  | Some v => set_wg v
  end.

(** [func (wg *WaitGroup) Done() { wg.Add(-1) }] *)
Definition sync_Done : M unit := sync_Add (-1).

(** ** Map reads with Go's zero value *)

(** [w.calls[key]] reads 0 for a missing key. *)
Definition get0 (c : gmap string Z) (key : string) : Z :=
  default 0 (c !! key).

(** ** [Add] *)

(** The key of a call site: [fmt.Sprintf("%s:%d", file, line)] of
    [runtime.Caller(1)]. *)
Record call_site := mkSite { file : string; line : Z }.

Definition key_of (site : call_site) : string :=
  file site +:+ ":" +:+ pretty (line site).

(** [func (w *WaitGroup) Add(i int) string]: the caller's site is passed
    explicitly. *)
Definition Add (site : call_site) (i : Z) : M string :=
  let key := key_of site in
  sync_Add i ;;;
  s <- get ;;
  let c := calls (w s) in
  set_calls (<[key := wrap64 (get0 c key + i)]> c) ;;;
  ret key.

(** ** [Done] *)

(** [func (w *WaitGroup) Done(key string)] *)
Definition Done (key : string) : M unit :=
  sync_Done ;;;
  s <- get ;;
  let c := calls (w s) in
  match c !! key with
  | Some _ =>
      let c' := <[key := wrap64 (get0 c key - 1)]> c in
      if decide (get0 c' key <= 0) then set_calls (delete key c')
      else set_calls c'
  | None => ret tt
  end.

(** ** [LogNotDone] *)

Definition nl : string := String (Ascii.ascii_of_nat 10) EmptyString.

(** [Opts.Log(pattern, args...)] appends one formatted string to the logger. *)
Definition Log (msg : string) : M unit :=
  s <- get ;; put (mkWorld (w s) (logger s ++ [msg])).

(** ["\nWaitGroup currently waiting on:\n"] *)
Definition header : string := nl +:+ "WaitGroup currently waiting on:" +:+ nl.

(** [" %s (%d outstanding)\n"] *)
Definition entry_line (key : string) (n : Z) : string :=
  " " +:+ key +:+ " (" +:+ pretty n +:+ " outstanding)" +:+ nl.

(** [for key, n := range w.calls { Opts.Log(...) }], visiting the entries in
    the order given. *)
Fixpoint log_each (order : list (string * Z)) : M unit :=
  match order with
  | [] => ret tt
  | (key, n) :: order' => Log (entry_line key n) ;;; log_each order'
  end.

(** Go's [range] over a map visits its entries in an unspecified order:
    any permutation of the map's entries. *)
Definition range_order (c : gmap string Z) (order : list (string * Z)) : Prop :=
  order ≡ₚ map_to_list c.

(** [func (w *WaitGroup) LogNotDone()], for a given iteration order of the
    [range] loop. *)
Definition LogNotDone_in (order : list (string * Z)) : M unit :=
  s <- get ;;
  if decide (size (calls (w s)) = 0%nat) then ret tt
  else Log header ;;; log_each order.

(** [LogNotDone] with the iteration order of [map_to_list]. *)
Definition LogNotDone : M unit :=
  s <- get ;; LogNotDone_in (map_to_list (calls (w s))) .

(** ** Sequences of calls *)

Inductive op :=
| OpAdd (site : call_site) (i : Z)
| OpDone (key : string).

Fixpoint run (ops : list op) : M unit :=
  match ops with
  | [] => ret tt
  | OpAdd site i :: ops' => Add site i ;;; run ops'
  | OpDone key :: ops' => Done key ;;; run ops'
  end.

(** The net sum of the counts added, each [Done] counting -1. *)
Fixpoint net (ops : list op) : Z :=
  match ops with
  | [] => 0
  | OpAdd _ i :: ops' => i + net ops'
  | OpDone _ :: ops' => -1 + net ops'
  end.

Definition fresh : world := mkWorld New [].

(** The call site used in the concrete runs below. *)
Definition site0 : call_site := mkSite "main.go" 10.

(** ** [Wait] *)

(** [func (w *WaitGroup) Wait(wait time.Duration)] as an interleaving of
    the goroutines involved:
    - the caller, blocked in [w.wg.Wait()] until the counter is 0, then
      [close(done)] and return;
    - the watcher goroutine, which runs [limit := time.After(wait)] and
      then loops on [select { case <-done: return; case <-limit:
      w.LogNotDone() }];
    - the runtime timer behind [time.After], which sends one value on
      [limit] once [wait] has elapsed;
    - the other goroutines, which call [Done] or [Add] meanwhile.
    A [select] may take any of its ready cases. *)
Module Watcher.

(** The channel [limit]: not created yet, timer running, value sent and
    waiting in the channel, value received. *)
Inductive timer_st := TNone | TArmed | TFired | TDrained.

(** The caller: blocked in [w.wg.Wait()], or returned (after [close(done)]). *)
Inductive main_st := MWaiting | MReturned.

(** The watcher goroutine: not yet scheduled, in its [for]/[select] loop,
    returned. *)
Inductive watcher_st := WNotStarted | WLoop | WExited.

Record wstate := mkW {
  pending : Z;           (** the [sync.WaitGroup] counter *)
  timer : timer_st;
  main : main_st;
  watcher : watcher_st;
  dumps : nat            (** calls of [w.LogNotDone()] so far *)
}.

Inductive event :=
| EStart                 (** the watcher runs [limit := time.After(wait)] *)
| ETimer                 (** [wait] has elapsed: the timer sends on [limit] *)
| EDone                  (** another goroutine calls [Done] *)
| EAdd (n : Z)           (** another goroutine calls [Add(n)], [n >= 1],
                             while the counter is positive *)
| EWake                  (** [w.wg.Wait()] returns; [close(done)] *)
| ESelDone               (** the [select] takes [case <-done]: [return] *)
| ESelLimit.             (** the [select] takes [case <-limit]: [w.LogNotDone()] *)

(** One step, [None] when the event is not enabled. A panicking [Add] or
    [Done] ends the program, so it is not a step. [w.wg.Wait()] returns
    once the [int32] counter ([counter_add]) is 0: an [Add] or [Done] that
    brings it to 0 releases the waiters. *)
Definition step (s : wstate) (e : event) : option wstate :=
  match e with
  | EStart =>
      match watcher s with
      | WNotStarted => Some (mkW (pending s) TArmed (main s) WLoop (dumps s))
      | _ => None
      end
  | ETimer =>
      match timer s with
      | TArmed => Some (mkW (pending s) TFired (main s) (watcher s) (dumps s))
      | _ => None
      end
  | EDone =>
      match counter_add (pending s) (-1) with
      | Some v => Some (mkW v (timer s) (main s) (watcher s) (dumps s))
      | None => None
      end
  | EAdd n =>
      if decide (1 <= n /\ in_int n /\ 1 <= pending s) then
        match counter_add (pending s) n with
        | Some v => Some (mkW v (timer s) (main s) (watcher s) (dumps s))
        | None => None
        end
      else None
  | EWake =>
      match main s with
      | MWaiting =>
          if decide (pending s = 0)
          then Some (mkW (pending s) (timer s) MReturned (watcher s) (dumps s))
          else None
      | MReturned => None
      end
  | ESelDone =>
      match watcher s, main s with
      | WLoop, MReturned => Some (mkW (pending s) (timer s) (main s) WExited (dumps s))
      | _, _ => None
      end
  | ESelLimit =>
      match watcher s, timer s with
      | WLoop, TFired => Some (mkW (pending s) TDrained (main s) (watcher s) (S (dumps s)))
      | _, _ => None
      end
  end.

Fixpoint exec (s : wstate) (evs : list event) : option wstate :=
  match evs with
  | [] => Some s
  | e :: evs' => match step s e with Some s' => exec s' evs' | None => None end
  end.

(** [Wait] called with the counter at [p]. *)
Definition init (p : Z) : wstate := mkW p TNone MWaiting WNotStarted 0.

(** The timer elapses at position [n] of the trace while the counter is
    still positive and [Wait] is still blocked. *)
Definition elapsed_before_zero (s0 : wstate) (evs : list event) : Prop :=
  exists n s', exec s0 (take n evs) = Some s' /\ evs !! n = Some ETimer /\
    0 < pending s' /\ main s' = MWaiting.


End Watcher.

(** ** Measures used in the statements below *)

(** The sum of the counts in [calls]. *)
Definition calls_total (c : gmap string Z) : Z :=
  map_fold (fun _ v acc => v + acc) 0 c.

(** The sum of the counts passed to [Add] in a run. *)
Fixpoint added (ops : list op) : Z :=
  match ops with
  | [] => 0
  | OpAdd _ i :: ops' => i + added ops'
  | OpDone _ :: ops' => added ops'
  end.

(** ** Lemmas about single operations *)

Lemma bind_apply {A B} (m : M A) (k : A -> M B) (s : world) :
  bind m k s = match m s with Panic e => Panic e | Ok a s' => k a s' end.
Proof. reflexivity. Qed.

Lemma sync_Add_spec (delta : Z) (s : world) :
  sync_Add delta s =
  match counter_add (wg (w s)) delta with
  | None => Panic negative_counter
  | Some v => Ok tt (mkWorld (mkWaitGroup v (calls (w s))) (logger s))
  end.
Proof. unfold sync_Add, bind, get. cbn. by destruct counter_add. Qed.

Lemma wrap32_id (z : Z) : in_int32 z -> wrap32 z = z.
Proof.
  unfold in_int32, int32_max, wrap32. intros Hz.
  rewrite Z.mod_small; lia.
Qed.

Lemma counter_add_range (c d v : Z) :
  counter_add c d = Some v -> 0 <= v <= int32_max.
Proof.
  unfold counter_add, wrap32, int32_max. case_decide; [discriminate|].
  intros [= <-]. pose proof (Z.mod_pos_bound (c + d + 2 ^ 31) (2 ^ 32)). lia.
Qed.

Lemma counter_add_small (c d : Z) :
  0 <= c + d <= int32_max -> counter_add c d = Some (c + d).
Proof.
  intros H. unfold counter_add. rewrite wrap32_id by (unfold in_int32; lia).
  case_decide; [lia | reflexivity].
Qed.

Lemma counter_add_neg (c d : Z) :
  - 2 ^ 31 <= c + d < 0 -> counter_add c d = None.
Proof.
  intros H. unfold counter_add.
  rewrite wrap32_id by (unfold in_int32, int32_max; lia).
  case_decide; [reflexivity | lia].
Qed.

(** Within one wrap-around of the [int32] range, the counter is exact. *)
Lemma counter_add_exact (c d v : Z) :
  - 2 ^ 31 <= c + d < 2 ^ 32 ->
  counter_add c d = Some v -> v = c + d.
Proof.
  intros H. destruct (decide (c + d <= int32_max)).
  - destruct (decide (0 <= c + d)).
    + rewrite counter_add_small by lia. congruence.
    + rewrite counter_add_neg by lia. discriminate.
  - unfold counter_add, wrap32.
    replace (c + d + 2 ^ 31) with ((c + d + 2 ^ 31 - 2 ^ 32) + 1 * 2 ^ 32) by lia.
    rewrite Z_mod_plus_full, Z.mod_small by (unfold int32_max in *; lia).
    case_decide; [discriminate | unfold int32_max in *; lia].
Qed.

Lemma counter_add_le (c d v : Z) :
  0 <= c + d -> counter_add c d = Some v -> v <= c + d.
Proof.
  intros H. unfold counter_add, wrap32. case_decide; [discriminate|].
  intros [= <-].
  destruct (decide (c + d + 2 ^ 31 < 2 ^ 32)).
  - rewrite Z.mod_small; lia.
  - pose proof (Z.mod_pos_bound (c + d + 2 ^ 31) (2 ^ 32)). lia.
Qed.

Lemma Add_cases (site : call_site) (i : Z) (s : world) :
  (counter_add (wg (w s)) i = None /\ Add site i s = Panic negative_counter) \/
  (exists v, counter_add (wg (w s)) i = Some v /\
   Add site i s =
     Ok (key_of site)
       (mkWorld (mkWaitGroup v
          (<[key_of site := wrap64 (get0 (calls (w s)) (key_of site) + i)]>
             (calls (w s)))) (logger s))).
Proof.
  unfold Add. rewrite bind_apply, sync_Add_spec.
  destruct (counter_add (wg (w s)) i) as [v|]; [right; exists v | left]; split; reflexivity.
Qed.

Lemma Done_cases (key : string) (s : world) :
  (counter_add (wg (w s)) (-1) = None /\ Done key s = Panic negative_counter) \/
  (exists v, counter_add (wg (w s)) (-1) = Some v /\
   exists c', Done key s =
     Ok tt (mkWorld (mkWaitGroup v c') (logger s))).
Proof.
  unfold Done, sync_Done. rewrite bind_apply, sync_Add_spec.
  destruct (counter_add (wg (w s)) (-1)) as [v|]; [right; exists v | left]; split; try reflexivity.
  cbn. destruct (calls (w s) !! key); [|eexists; reflexivity].
  case_decide; eexists; reflexivity.
Qed.

(** While every [Add] count fits in an [int32], the counter never wraps:
    it is the net count, and it panics as soon as that goes negative. *)
Lemma run_counter (ops : list op) (s0 : world) :
  0 <= wg (w s0) <= int32_max ->
  (forall site i, OpAdd site i ∈ ops -> in_int32 i) ->
  (forall s, run ops s0 = Ok tt s ->
     wg (w s) = wg (w s0) + net ops /\ 0 <= wg (w s) <= int32_max) /\
  ((exists n, wg (w s0) + net (take n ops) < 0) -> run ops s0 = Panic negative_counter).
Proof.
  revert s0. induction ops as [|o ops IH]; intros s0 Hs0 Hops.
  - split.
    + intros s H. injection H as <-. cbn. lia.
    + intros [n Hn]. rewrite take_nil in Hn. cbn in Hn. lia.
  - assert (Hops' : forall site i, OpAdd site i ∈ ops -> in_int32 i)
      by (intros site i Hin; apply (Hops site i); by right).
    destruct o as [site i | key].
    + assert (Hi : in_int32 i) by (apply (Hops site i); left).
      unfold in_int32, int32_max in Hi.
      destruct (Add_cases site i s0) as [[Hlt HA] | [v [Hv HA]]].
      * cbn [run]. rewrite bind_apply, HA. split; [discriminate | reflexivity].
      * cbn [run]. rewrite bind_apply, HA.
        pose proof (counter_add_range _ _ _ Hv) as Hvr.
        pose proof (counter_add_exact (wg (w s0)) i v ltac:(unfold int32_max in *; lia) Hv) as Hveq.
        match type of HA with _ = Ok _ ?s1 =>
          destruct (IH s1 ltac:(exact Hvr) Hops') as [IH1 IH2] end.
        cbn [wg w] in IH1, IH2. split.
        -- intros s Hs. destruct (IH1 s Hs) as [-> ?]. cbn [net]. split; [lia | done].
        -- intros [[|n] Hn]; [cbn in Hn; lia|].
           apply IH2. exists n. cbn [take net] in Hn. lia.
    + destruct (Done_cases key s0) as [[Hlt HD] | [v [Hv [c' HD]]]].
      * cbn [run]. rewrite bind_apply, HD. split; [discriminate | reflexivity].
      * cbn [run]. rewrite bind_apply, HD.
        pose proof (counter_add_range _ _ _ Hv) as Hvr.
        pose proof (counter_add_exact (wg (w s0)) (-1) v ltac:(unfold int32_max in *; lia) Hv) as Hveq.
        match type of HD with _ = Ok _ ?s1 =>
          destruct (IH s1 ltac:(exact Hvr) Hops') as [IH1 IH2] end.
        cbn [wg w] in IH1, IH2. split.
        -- intros s Hs. destruct (IH1 s Hs) as [-> ?]. cbn [net]. split; [lia | done].
        -- intros [[|n] Hn]; [cbn in Hn; lia|].
           apply IH2. exists n. cbn [take net] in Hn. lia.
Qed.

Lemma wrap64_id (z : Z) : in_int z -> wrap64 z = z.
Proof.
  unfold in_int, int_min, int_max, wrap64. intros Hz.
  rewrite Z.mod_small; lia.
Qed.

Lemma get0_insert (c : gmap string Z) (key : string) (v : Z) :
  get0 (<[key := v]> c) key = v.
Proof. unfold get0. by rewrite lookup_insert_eq. Qed.

Lemma get0_some (c : gmap string Z) (key : string) (v : Z) :
  c !! key = Some v -> get0 c key = v.
Proof. unfold get0. by intros ->. Qed.

Lemma get0_none (c : gmap string Z) (key : string) :
  c !! key = None -> get0 c key = 0.
Proof. unfold get0. by intros ->. Qed.

Lemma Done_present (s : world) (key : string) (v : Z) :
  calls (w s) !! key = Some v -> 1 <= wg (w s) <= int32_max ->
  Done key s =
    Ok tt (mkWorld (mkWaitGroup (wg (w s) - 1)
      (if decide (wrap64 (v - 1) <= 0) then delete key (<[key := wrap64 (v - 1)]> (calls (w s)))
       else <[key := wrap64 (v - 1)]> (calls (w s)))) (logger s)).
Proof.
  intros Hv Hwg. unfold Done, sync_Done. rewrite bind_apply, sync_Add_spec.
  rewrite counter_add_small by lia. cbn. rewrite Hv.
  rewrite (get0_some _ _ _ Hv), get0_insert.
  replace (wg (w s) + -1) with (wg (w s) - 1) by lia.
  by case_decide.
Qed.

Lemma log_each_spec (order : list (string * Z)) (s : world) :
  log_each order s =
    Ok tt (mkWorld (w s) (logger s ++ map (fun '(key, n) => entry_line key n) order)).
Proof.
  revert s. induction order as [|[key n] order IH]; intros s.
  - cbn. destruct s. by rewrite app_nil_r.
  - cbn [log_each]. rewrite bind_apply. cbn. rewrite IH. cbn.
    by rewrite <- app_assoc.
Qed.

Lemma LogNotDone_in_spec (order : list (string * Z)) (s : world) :
  LogNotDone_in order s =
    if decide (size (calls (w s)) = 0%nat) then Ok tt s
    else Ok tt (mkWorld (w s)
           (logger s ++ header :: map (fun '(key, n) => entry_line key n) order)).
Proof.
  unfold LogNotDone_in. rewrite bind_apply. cbn -[log_each].
  case_decide; [reflexivity|]. rewrite bind_apply. cbn -[log_each].
  rewrite log_each_spec. cbn. by rewrite <- app_assoc.
Qed.

(** [LogNotDone] on a non-empty map writes the header and then one line per
    entry of the map, in the order of the [range] loop. *)
Lemma LogNotDone_in_nonempty (order : list (string * Z)) (s : world) :
  calls (w s) <> ∅ ->
  LogNotDone_in order s =
    Ok tt (mkWorld (w s)
      (logger s ++ header :: map (fun '(key, n) => entry_line key n) order)).
Proof.
  intros Hne. rewrite LogNotDone_in_spec. case_decide as Hs; [|reflexivity].
  exfalso. apply Hne. by apply map_size_empty_inv.
Qed.

Lemma key_site0 : key_of site0 = "main.go:10".
Proof. vm_compute. reflexivity. Qed.

Lemma run_Add_zero :
  run [OpAdd site0 0] fresh =
    Ok tt (mkWorld (mkWaitGroup 0 {[ "main.go:10" := 0 ]}) []).
Proof. vm_compute. reflexivity. Qed.

Lemma Add_zero_fresh :
  Add site0 0 fresh =
    Ok "main.go:10" (mkWorld (mkWaitGroup 0 {[ "main.go:10" := 0 ]}) []).
Proof. vm_compute. reflexivity. Qed.

(** * Claims *)

(** C1 (counterexample): a negative [Add] count of [-2^32] leaves the
    [int32] counter unchanged, so a [Done] beyond the net count of the
    [Add] calls does not panic. *)
Theorem Done_underflow_wraps :
  net [OpAdd site0 1; OpAdd site0 (- 2 ^ 32); OpDone "main.go:10"] < 0 /\
  run [OpAdd site0 1; OpAdd site0 (- 2 ^ 32); OpDone "main.go:10"] fresh =
    Ok tt (mkWorld (mkWaitGroup 0 ∅) []).
Proof. split; vm_compute; reflexivity. Qed.

(** C1: starting from [New()], a run whose [Add] counts all fit in an
    [int32] and whose [Done] calls (and negative [Add] counts) at some point
    exceed the net sum of the counts added before panics with
    "sync: negative WaitGroup counter" instead of clamping; every such run
    that does not panic ends with a counter equal to the net sum, which is
    never negative; on any state whose counter is 0, [Done] panics. *)
Theorem Done_underflow_panics (lg : list string) (ops : list op)
  (Hops : forall site i, OpAdd site i ∈ ops -> in_int32 i) :
  (forall s, run ops (mkWorld New lg) = Ok tt s ->
     wg (w s) = net ops /\ 0 <= wg (w s) <= int32_max) /\
  ((exists n, net (take n ops) < 0) -> run ops (mkWorld New lg) = Panic negative_counter) /\
  (forall (s : world) (key : string), wg (w s) = 0 -> Done key s = Panic negative_counter).
Proof.
  destruct (run_counter ops (mkWorld New lg)) as [H1 H2];
    [cbn; unfold int32_max; lia | exact Hops |].
  cbn [w wg New] in H1, H2. split; [|split].
  - intros s Hs. destruct (H1 s Hs). split; [lia | done].
  - intros [n Hn]. apply H2. exists n. lia.
  - intros s key H0. destruct (Done_cases key s) as [[_ HD] | [v [Hv _]]]; [exact HD|].
    rewrite H0, counter_add_neg in Hv by lia. discriminate.
Qed.

Lemma Done_underflow_panics_witness :
  (forall site i, OpAdd site i ∈ [OpAdd site0 1; OpDone "main.go:10"; OpDone "main.go:10"] ->
     in_int32 i) /\
  run [OpAdd site0 1; OpDone "main.go:10"; OpDone "main.go:10"] (mkWorld New []) =
    Panic negative_counter.
Proof.
  assert (Hops : forall site i,
    OpAdd site i ∈ [OpAdd site0 1; OpDone "main.go:10"; OpDone "main.go:10"] -> in_int32 i).
  { intros site i Hin. apply list_elem_of_In in Hin.
    destruct Hin as [[= _ <-] | [[=] | [[=] | []]]]. unfold in_int32, int32_max. lia. }
  split; [exact Hops|].
  apply (proj1 (proj2 (Done_underflow_panics [] _ Hops))).
  exists 3%nat. vm_compute. reflexivity.
Defined.

(** C2: [Done] with a key absent from [calls] leaves [calls] and the logger
    unchanged and applies [sync.WaitGroup.Add(-1)] to the counter; for a
    counter in the [int32] range that is non-negative (every counter a
    [WaitGroup] reaches), this decrements it by 1, and it panics, touching
    nothing, when the counter is 0. *)
Theorem Done_absent_key (s : world) (key : string)
  (Habs : calls (w s) !! key = None) :
  Done key s =
    match counter_add (wg (w s)) (-1) with
    | None => Panic negative_counter
    | Some v => Ok tt (mkWorld (mkWaitGroup v (calls (w s))) (logger s))
    end /\
  (0 <= wg (w s) <= int32_max ->
   Done key s =
     if decide (wg (w s) - 1 < 0) then Panic negative_counter
     else Ok tt (mkWorld (mkWaitGroup (wg (w s) - 1) (calls (w s))) (logger s))).
Proof.
  assert (Hexact : Done key s =
    match counter_add (wg (w s)) (-1) with
    | None => Panic negative_counter
    | Some v => Ok tt (mkWorld (mkWaitGroup v (calls (w s))) (logger s))
    end).
  { unfold Done, sync_Done. rewrite bind_apply, sync_Add_spec.
    destruct (counter_add (wg (w s)) (-1)); [|reflexivity]. cbn. by rewrite Habs. }
  split; [exact Hexact|]. intros Hwg. rewrite Hexact.
  case_decide.
  - rewrite counter_add_neg by lia. reflexivity.
  - rewrite counter_add_small by lia. by replace (wg (w s) + -1) with (wg (w s) - 1) by lia.
Qed.

Lemma Done_absent_key_witness :
  calls (w (mkWorld (mkWaitGroup 1 ∅) [])) !! "main.go:10" = None /\
  Done "main.go:10" (mkWorld (mkWaitGroup 1 ∅) []) =
    Ok tt (mkWorld (mkWaitGroup 0 ∅) []).
Proof.
  assert (Habs : calls (w (mkWorld (mkWaitGroup 1 ∅) [])) !! "main.go:10" = None)
    by (vm_compute; reflexivity).
  split; [exact Habs|].
  rewrite (proj2 (Done_absent_key (mkWorld (mkWaitGroup 1 ∅) []) "main.go:10" Habs))
    by (cbn; unfold int32_max; lia).
  vm_compute. reflexivity.
Defined.

(** C3 (fails): "every key present in [calls] has a positive count" is not
    an invariant of the runs from [New()]: [Add(0)] stores a 0 entry that
    nothing removes. *)
Theorem calls_positive_fails :
  ~ (forall (ops : list op) (s : world), run ops fresh = Ok tt s ->
       forall (k : string) (v : Z), calls (w s) !! k = Some v -> 0 < v).
Proof.
  intros H.
  pose proof (H _ _ run_Add_zero "main.go:10" 0) as Hc.
  cbn [calls w] in Hc. rewrite lookup_singleton_eq in Hc. specialize (Hc eq_refl). lia.
Qed.

(** C4 (fails): [Add(0)] from [New()] keeps the counter at 0 but inserts the
    key with count 0 into [calls], and a later [LogNotDone] reports it,
    whereas [LogNotDone] on [New()] writes nothing. *)
Theorem Add_zero_not_noop :
  Add site0 0 fresh =
    Ok "main.go:10" (mkWorld (mkWaitGroup 0 {[ "main.go:10" := 0 ]}) []) /\
  calls (w fresh) <> {[ "main.go:10" := 0 ]} /\
  LogNotDone fresh = Ok tt fresh /\
  bind (Add site0 0) (fun _ => LogNotDone) fresh =
    Ok tt (mkWorld (mkWaitGroup 0 {[ "main.go:10" := 0 ]})
             [header; entry_line "main.go:10" 0]).
Proof.
  split; [exact Add_zero_fresh|]. split; [|split].
  - cbn. intros Heq. apply (map_non_empty_singleton (M := gmap string) "main.go:10" 0).
    symmetry. exact Heq.
  - vm_compute. reflexivity.
  - rewrite bind_apply, Add_zero_fresh. vm_compute. reflexivity.
Qed.

(** C5 (counterexample): the counts are added to an [int32] counter, so
    two [Add(2^31 - 1)] calls from [New()] do not aggregate: the second one
    panics. And two [Add(2^32)] calls wrap the counter back to 0 while the
    entry is [2^33]; the following [Done] panics instead of decrementing
    the entry. *)
Theorem Add_Add_int32_overflow :
  bind (Add site0 int32_max) (fun _ => Add site0 int32_max) fresh = Panic negative_counter /\
  run [OpAdd site0 (2 ^ 32); OpAdd site0 (2 ^ 32)] fresh =
    Ok tt (mkWorld (mkWaitGroup 0 {[ "main.go:10" := 2 ^ 33 ]}) []) /\
  bind (run [OpAdd site0 (2 ^ 32); OpAdd site0 (2 ^ 32)]) (fun _ => Done "main.go:10") fresh =
    Panic negative_counter.
Proof. split; [|split]; vm_compute; reflexivity. Qed.

(** C5: two [Add] calls yielding the same key, with counts [n1, n2 >= 1]
    whose sum with the counter stays within [int32], on a state where the
    key has no entry, leave the entry at [n1 + n2]; one [Done] with the key
    then leaves it at [n1 + n2 - 1]. *)
Theorem Add_Add_Done_same_key (s : world) (site1 site2 : call_site) (n1 n2 : Z)
  (Hkey : key_of site1 = key_of site2)
  (Habs : calls (w s) !! key_of site1 = None)
  (Hwg : 0 <= wg (w s))
  (Hn1 : 1 <= n1) (Hn2 : 1 <= n2) (Hmax : wg (w s) + n1 + n2 <= int32_max) :
  exists s1 s2 s3,
    Add site1 n1 s = Ok (key_of site1) s1 /\
    Add site2 n2 s1 = Ok (key_of site1) s2 /\
    calls (w s2) !! key_of site1 = Some (n1 + n2) /\
    Done (key_of site1) s2 = Ok tt s3 /\
    calls (w s3) !! key_of site1 = Some (n1 + n2 - 1) /\
    wg (w s3) = wg (w s) + n1 + n2 - 1.
Proof.
  assert (Hin : forall z, 1 <= z <= int32_max -> in_int z)
    by (intros z Hz; unfold in_int, int_min, int_max, int32_max in *; lia).
  destruct (Add_cases site1 n1 s) as [[Hc _] | [v1 [Hv1 HA1]]];
    rewrite counter_add_small in * by lia; [discriminate|].
  injection Hv1 as <-.
  rewrite get0_none in HA1 by exact Habs.
  rewrite Z.add_0_l, wrap64_id in HA1 by (apply Hin; lia).
  match type of HA1 with _ = Ok _ ?t => set (s1 := t) in HA1 end.
  destruct (Add_cases site2 n2 s1) as [[Hc _] | [v2 [Hv2 HA2]]];
    cbn [s1 w wg] in *; rewrite counter_add_small in * by lia; [discriminate|].
  injection Hv2 as <-.
  rewrite <- Hkey in HA2. cbn [s1 w calls wg logger] in HA2.
  rewrite get0_insert, wrap64_id, insert_insert_eq in HA2 by (apply Hin; lia).
  match type of HA2 with _ = Ok _ ?t => set (s2 := t) in HA2 end.
  assert (Hs2 : calls (w s2) !! key_of site1 = Some (n1 + n2))
    by (cbn; apply lookup_insert_eq).
  assert (Hwg2 : 1 <= wg (w s2) <= int32_max) by (cbn; lia).
  pose proof (Done_present s2 (key_of site1) (n1 + n2) Hs2 Hwg2) as HD.
  rewrite wrap64_id in HD by (apply Hin; lia).
  rewrite decide_False in HD by lia.
  eexists s1, s2, _. split; [exact HA1|]. split; [exact HA2|]. split; [exact Hs2|].
  split; [exact HD|]. split.
  - cbn. apply lookup_insert_eq.
  - cbn. lia.
Qed.

Lemma Add_Add_Done_same_key_witness :
  exists s1 s2 s3,
    Add site0 1 fresh = Ok (key_of site0) s1 /\
    Add site0 1 s1 = Ok (key_of site0) s2 /\
    calls (w s2) !! key_of site0 = Some (1 + 1) /\
    Done (key_of site0) s2 = Ok tt s3 /\
    calls (w s3) !! key_of site0 = Some (1 + 1 - 1) /\
    wg (w s3) = wg (w fresh) + 1 + 1 - 1.
Proof.
  apply (Add_Add_Done_same_key fresh site0 site0 1 1); try reflexivity;
    try (vm_compute; reflexivity); vm_compute; try congruence; discriminate.
Defined.

(** C6 (fails): [LogNotDone] writes one line per entry of [calls], also for
    an entry whose count is 0: after [Add(0)] from [New()] it reports
    [" main.go:10 (0 outstanding)"]. *)
Theorem LogNotDone_reports_zero_entry :
  bind (run [OpAdd site0 0]) (fun _ => LogNotDone) fresh =
    Ok tt (mkWorld (mkWaitGroup 0 {[ "main.go:10" := 0 ]})
             [header; " main.go:10 (0 outstanding)" +:+ nl]).
Proof. rewrite bind_apply, run_Add_zero. vm_compute. reflexivity. Qed.

(** C7: on a [WaitGroup] whose [calls] map is empty, [LogNotDone] writes
    nothing, whatever the iteration order, and changes nothing. *)
Theorem LogNotDone_empty_silent (s : world) (order : list (string * Z))
  (Hempty : calls (w s) = ∅) :
  LogNotDone_in order s = Ok tt s.
Proof.
  rewrite LogNotDone_in_spec, Hempty. rewrite map_size_empty. reflexivity.
Qed.

Lemma LogNotDone_empty_silent_witness :
  calls (w fresh) = ∅ /\ LogNotDone_in [] fresh = Ok tt fresh.
Proof. split; [reflexivity | apply LogNotDone_empty_silent; reflexivity]. Defined.

(** C10: [LogNotDone] only appends to the logger: the counter and the whole
    [calls] map are left as they were, for every iteration order. *)
Theorem LogNotDone_read_only (s : world) :
  (forall order : list (string * Z),
     exists out, LogNotDone_in order s = Ok tt (mkWorld (w s) (logger s ++ out))) /\
  (exists out, LogNotDone s = Ok tt (mkWorld (w s) (logger s ++ out))).
Proof.
  assert (H : forall order : list (string * Z),
     exists out, LogNotDone_in order s = Ok tt (mkWorld (w s) (logger s ++ out))).
  { intros order. rewrite LogNotDone_in_spec. case_decide.
    - exists []. destruct s. cbn. by rewrite app_nil_r.
    - eexists. reflexivity. }
  split; [exact H|]. apply H.
Qed.

(** ** The watcher of [Wait] *)

Section WatcherFacts.
Import Watcher.




Lemma step_dumps (s s' : wstate) (e : event) :
  step s e = Some s' ->
  (watcher s = WNotStarted -> timer s = TNone) ->
  (dumps s = 0%nat /\ timer s <> TDrained) \/ (dumps s = 1%nat /\ timer s = TDrained) ->
  (watcher s' = WNotStarted -> timer s' = TNone) /\
  ((dumps s' = 0%nat /\ timer s' <> TDrained) \/ (dumps s' = 1%nat /\ timer s' = TDrained)).
Proof.
  destruct s as [p t m wt d]; cbn.
  destruct e; cbn; repeat case_match; intros Hs Hw Hd; simplify_eq/=;
    try (specialize (Hw eq_refl); discriminate);
    intuition (try discriminate; try congruence).
Qed.

Lemma exec_dumps (evs : list event) (s s' : wstate) :
  exec s evs = Some s' ->
  (watcher s = WNotStarted -> timer s = TNone) ->
  (dumps s = 0%nat /\ timer s <> TDrained) \/ (dumps s = 1%nat /\ timer s = TDrained) ->
  (watcher s' = WNotStarted -> timer s' = TNone) /\
  ((dumps s' = 0%nat /\ timer s' <> TDrained) \/ (dumps s' = 1%nat /\ timer s' = TDrained)).
Proof.
  revert s. induction evs as [|e evs IH]; intros s Hx Hw Hd.
  - cbn in Hx. simplify_eq. auto.
  - cbn in Hx. destruct (step s e) as [s1|] eqn:Hs; [|discriminate].
    destruct (step_dumps s s1 e Hs Hw Hd). eapply IH; eauto.
Qed.



End WatcherFacts.

(** C8 (fails as stated): the timer can elapse while the counter is still
    positive and yet no dump happens: the counter reaches 0 and [done] is
    closed before the watcher's [select] runs, which then takes
    [case <-done]. *)
Theorem Wait_elapsed_without_dump :
  ~ (forall (p : Z) (evs : list Watcher.event) (s : Watcher.wstate),
       Watcher.exec (Watcher.init p) evs = Some s ->
       Watcher.main s = Watcher.MReturned -> Watcher.watcher s = Watcher.WExited ->
       Watcher.elapsed_before_zero (Watcher.init p) evs -> Watcher.dumps s = 1%nat).
Proof.
  intros H.
  assert (Hx : Watcher.exec (Watcher.init 1)
                 [Watcher.EStart; Watcher.ETimer; Watcher.EDone; Watcher.EWake; Watcher.ESelDone]
               = Some (Watcher.mkW 0 Watcher.TFired Watcher.MReturned Watcher.WExited 0))
    by reflexivity.
  assert (He : Watcher.elapsed_before_zero (Watcher.init 1)
                 [Watcher.EStart; Watcher.ETimer; Watcher.EDone; Watcher.EWake; Watcher.ESelDone]).
  { exists 1%nat, (Watcher.mkW 1 Watcher.TArmed Watcher.MWaiting Watcher.WLoop 0).
    split; [reflexivity | split; [reflexivity | split; [cbn; lia | reflexivity]]]. }
  specialize (H _ _ _ Hx eq_refl eq_refl He). discriminate.
Qed.

(** C8, amended: in every state reached during a [Wait] call, the watcher
    has called [LogNotDone] at most once, and once exactly when it has
    received the timer's single value (the timer is never re-armed, so no
    second dump follows). While [Wait] is still blocked and the timer has
    fired, the watcher's [select] cannot take [case <-done] and its only
    step is the dump. *)
Theorem Wait_at_most_one_dump (p : Z) (evs : list Watcher.event) (s : Watcher.wstate)
  (Hexec : Watcher.exec (Watcher.init p) evs = Some s) :
  (Watcher.dumps s <= 1)%nat /\
  (Watcher.dumps s = 1%nat <-> Watcher.timer s = Watcher.TDrained) /\
  (Watcher.watcher s = Watcher.WLoop -> Watcher.timer s = Watcher.TFired ->
   Watcher.main s = Watcher.MWaiting ->
   Watcher.step s Watcher.ESelDone = None /\
   Watcher.step s Watcher.ESelLimit =
     Some (Watcher.mkW (Watcher.pending s) Watcher.TDrained (Watcher.main s)
             (Watcher.watcher s) (S (Watcher.dumps s)))).
Proof.
  destruct (exec_dumps evs (Watcher.init p) s Hexec) as [_ Hd];
    [reflexivity | left; split; [reflexivity | discriminate] |].
  split; [|split].
  - destruct Hd as [[-> _] | [-> _]]; lia.
  - destruct Hd as [[-> Ht] | [-> Ht]]; split; intros; congruence.
  - intros Hw Ht Hm. unfold Watcher.step. rewrite Hw, Ht, Hm. split; reflexivity.
Qed.

Lemma Wait_at_most_one_dump_witness :
  Watcher.exec (Watcher.init 1)
    [Watcher.EStart; Watcher.ETimer; Watcher.ESelLimit; Watcher.EDone]
    = Some (Watcher.mkW 0 Watcher.TDrained Watcher.MWaiting Watcher.WLoop 1) /\
  (1 <= 1)%nat.
Proof.
  split; [reflexivity|].
  exact (proj1 (Wait_at_most_one_dump 1
    [Watcher.EStart; Watcher.ETimer; Watcher.ESelLimit; Watcher.EDone]
    (Watcher.mkW 0 Watcher.TDrained Watcher.MWaiting Watcher.WLoop 1) eq_refl)).
Defined.



(** ** Further properties of [Add], [Done] and [LogNotDone] *)


(** [Done(key)] for a key present with a count [v] (a Go [int] other than
    the minimum), while the counter is positive (and, as every counter a
    [WaitGroup] reaches, within [int32]): the counter drops by 1;
    the entry drops to [v - 1], and is deleted when [v <= 1]; every other
    entry and the logger are left alone. *)
Theorem Done_known_key (s : world) (key : string) (v : Z)
  (Hv : calls (w s) !! key = Some v) (Hrange : int_min < v <= int_max)
  (Hwg : 1 <= wg (w s) <= int32_max) :
  exists s', Done key s = Ok tt s' /\
    wg (w s') = wg (w s) - 1 /\ logger s' = logger s /\
    calls (w s') !! key = (if decide (v <= 1) then None else Some (v - 1)) /\
    forall k, k <> key -> calls (w s') !! k = calls (w s) !! k.
Proof.
  rewrite (Done_present s key v Hv Hwg).
  rewrite wrap64_id by (unfold in_int, int_min, int_max in *; lia).
  eexists. split; [reflexivity|]. cbn. split; [reflexivity|]. split; [reflexivity|].
  case_decide; [rewrite decide_True by lia | rewrite decide_False by lia]; split.
  - apply lookup_delete_eq.
  - intros k Hk. rewrite lookup_delete_ne by congruence. by apply lookup_insert_ne.
  - apply lookup_insert_eq.
  - intros k Hk. by apply lookup_insert_ne.
Qed.

Lemma Done_known_key_witness :
  exists s', Done "main.go:10" (mkWorld (mkWaitGroup 2 {[ "main.go:10" := 2 ]}) []) = Ok tt s' /\
    wg (w s') = 2 - 1 /\ logger s' = [] /\
    calls (w s') !! "main.go:10" = (if decide (2 <= 1) then None else Some (2 - 1)) /\
    forall k, k <> "main.go:10" ->
      calls (w s') !! k = ({[ "main.go:10" := 2 ]} : gmap string Z) !! k.
Proof.
  exact (Done_known_key (mkWorld (mkWaitGroup 2 {[ "main.go:10" := 2 ]}) []) "main.go:10" 2
    (lookup_singleton_eq _ _) ltac:(unfold int_min, int_max; lia) ltac:(cbn; unfold int32_max; lia)).
Defined.

Lemma Dones_delete (m : nat) (t : world) (key : string) :
  (1 <= m)%nat -> Z.of_nat m <= int_max ->
  calls (w t) !! key = Some (Z.of_nat m) -> Z.of_nat m <= wg (w t) <= int32_max ->
  run (replicate m (OpDone key)) t =
    Ok tt (mkWorld (mkWaitGroup (wg (w t) - Z.of_nat m) (delete key (calls (w t)))) (logger t)).
Proof.
  revert t. induction m as [|m IH]; intros t Hm Hmax Hv Hwg; [lia|].
  cbn [replicate run]. rewrite bind_apply.
  rewrite (Done_present t key _ Hv) by lia.
  rewrite wrap64_id by (unfold in_int, int_min, int_max in *; lia).
  destruct m as [|m].
  - rewrite decide_True by lia. cbn. by rewrite delete_insert_eq.
  - rewrite decide_False by lia.
    rewrite IH by (cbn; rewrite ?lookup_insert_eq; f_equal; lia).
    cbn. rewrite delete_insert_eq. do 3 f_equal. lia.
Qed.

(** [Add(n)] with [n >= 1] at a site whose key has no entry, followed by [n]
    calls of [Done] with the returned key, while the counter plus [n] fits
    in an [int32], gives back exactly the state the
    [WaitGroup] had before: same counter, same [calls], nothing logged. *)
Theorem Add_then_Dones_restore (s : world) (site : call_site) (n : nat)
  (Habs : calls (w s) !! key_of site = None) (Hwg : 0 <= wg (w s))
  (Hn : (1 <= n)%nat) (Hmax : wg (w s) + Z.of_nat n <= int32_max) :
  bind (Add site (Z.of_nat n)) (fun key => run (replicate n (OpDone key))) s = Ok tt s.
Proof.
  rewrite bind_apply.
  destruct (Add_cases site (Z.of_nat n) s) as [[Hc _] | [v [Hv HA]]];
    rewrite counter_add_small in * by lia; [discriminate|].
  injection Hv as <-. rewrite HA.
  rewrite get0_none, Z.add_0_l, wrap64_id
    by (auto; unfold in_int, int_min, int_max, int32_max in *; lia).
  rewrite Dones_delete; cbn; [| lia | unfold int_max, int32_max in *; lia | apply lookup_insert_eq | lia].
  rewrite delete_insert_id by exact Habs.
  replace (wg (w s) + Z.of_nat n - Z.of_nat n) with (wg (w s)) by lia.
  by destruct s as [[] ?].
Qed.

Lemma Add_then_Dones_restore_witness :
  bind (Add site0 (Z.of_nat 3)) (fun key => run (replicate 3 (OpDone key))) fresh = Ok tt fresh.
Proof.
  apply Add_then_Dones_restore; try reflexivity; try lia.
  cbn. unfold int32_max. lia.
Defined.

Lemma Done_keys (key : string) (s s' : world) (k : string) :
  Done key s = Ok tt s' -> is_Some (calls (w s') !! k) -> is_Some (calls (w s) !! k).
Proof.
  unfold Done, sync_Done. rewrite bind_apply, sync_Add_spec.
  destruct counter_add; [|discriminate]. cbn.
  destruct (calls (w s) !! key) as [v|] eqn:Hv.
  - case_decide; intros Heq; injection Heq as <-; cbn;
      rewrite ?lookup_delete_is_Some, lookup_insert_is_Some;
      destruct (decide (key = k)) as [->|]; rewrite ?Hv; naive_solver.
  - intros Heq. by injection Heq as <-.
Qed.

Lemma run_keys (ops : list op) (s0 s : world) (k : string) :
  run ops s0 = Ok tt s -> is_Some (calls (w s) !! k) ->
  is_Some (calls (w s0) !! k) \/ exists site i, OpAdd site i ∈ ops /\ key_of site = k.
Proof.
  revert s0. induction ops as [|o ops IH]; intros s0 Hr Hk.
  - injection Hr as <-. by left.
  - destruct o as [site i | key]; cbn [run] in Hr; rewrite bind_apply in Hr.
    + destruct (Add_cases site i s0) as [[_ HA] | [? [_ HA]]]; rewrite HA in Hr; [discriminate|].
      destruct (IH _ Hr Hk) as [Hin | (site' & i' & Hop & Hkey)].
      * cbn in Hin. destruct (decide (key_of site = k)) as [<-|Hne].
        -- right. exists site, i. split; [left|reflexivity].
        -- left. by rewrite lookup_insert_ne in Hin.
      * right. exists site', i'. split; [by right|exact Hkey].
    + destruct (Done key s0) as [e|[] s1] eqn:HD; [discriminate|].
      destruct (IH _ Hr Hk) as [Hin | (site' & i' & Hop & Hkey)].
      * left. exact (Done_keys key s0 s1 k HD Hin).
      * right. exists site', i'. split; [by right|exact Hkey].
Qed.

(** Every key in [calls] after a run from [New()] is the key returned by one
    of the run's [Add] calls: [Done] never creates an entry, whatever key it
    is given. *)
Theorem run_keys_from_Add (ops : list op) (s : world)
  (Hrun : run ops fresh = Ok tt s) :
  forall k, is_Some (calls (w s) !! k) ->
    exists site i, OpAdd site i ∈ ops /\ key_of site = k.
Proof.
  intros k Hk. destruct (run_keys ops fresh s k Hrun Hk) as [Hin|]; [|assumption].
  cbn in Hin. rewrite lookup_empty in Hin. by destruct Hin.
Qed.

Lemma run_keys_from_Add_witness :
  exists site i, OpAdd site i ∈ [OpAdd site0 2; OpDone "other.go:3"; OpDone "main.go:10"] /\
    key_of site = "main.go:10".
Proof.
  apply (run_keys_from_Add [OpAdd site0 2; OpDone "other.go:3"; OpDone "main.go:10"]
           (mkWorld (mkWaitGroup (-1 + 2 - 1 + 1 - 1) {[ "main.go:10" := 1 ]}) [])).
  - vm_compute. reflexivity.
  - exists 1. reflexivity.
Defined.

(** [LogNotDone] on a non-empty [calls] map, for any iteration order of its
    [range] loop, appends to the logger the header followed by one line
    [" key (n outstanding)"] for each entry, each entry exactly once:
    [1 + size calls] strings in all. *)
Theorem LogNotDone_lines (s : world) (order : list (string * Z))
  (Hne : calls (w s) <> ∅) (Hord : range_order (calls (w s)) order) :
  exists out, LogNotDone_in order s = Ok tt (mkWorld (w s) (logger s ++ out)) /\
    out = header :: map (fun '(key, n) => entry_line key n) order /\
    length out = S (size (calls (w s))) /\
    (forall k n, (k, n) ∈ order <-> calls (w s) !! k = Some n) /\
    NoDup order.
Proof.
  exists (header :: map (fun '(key, n) => entry_line key n) order).
  split; [by apply LogNotDone_in_nonempty|]. split; [reflexivity|]. split; [|split].
  - cbn. rewrite length_map, (Permutation_length Hord). by rewrite length_map_to_list.
  - intros k n. unfold range_order in Hord. rewrite Hord. apply elem_of_map_to_list.
  - unfold range_order in Hord. rewrite Hord. apply NoDup_map_to_list.
Qed.

Lemma LogNotDone_lines_witness :
  exists out, LogNotDone_in [("main.go:10", 1)] (mkWorld (mkWaitGroup 1 {[ "main.go:10" := 1 ]}) [])
    = Ok tt (mkWorld (mkWaitGroup 1 {[ "main.go:10" := 1 ]}) ([] ++ out)) /\
    out = header :: map (fun '(key, n) => entry_line key n) [("main.go:10", 1)] /\
    length out = S (size ({[ "main.go:10" := 1 ]} : gmap string Z)) /\
    (forall k n, (k, n) ∈ [("main.go:10", 1)] <-> ({[ "main.go:10" := 1 ]} : gmap string Z) !! k = Some n) /\
    NoDup [("main.go:10", 1)].
Proof.
  exact (LogNotDone_lines (mkWorld (mkWaitGroup 1 {[ "main.go:10" := 1 ]}) []) [("main.go:10", 1)]
    (map_non_empty_singleton _ _)
    ltac:(unfold range_order; cbn; by rewrite map_to_list_singleton)).
Defined.

Lemma colon_free_cons (c : Ascii.ascii) (d : string) :
  c <> ":"%char -> (forall a b, d <> a +:+ String ":"%char b) ->
  forall a b, String c d <> a +:+ String ":"%char b.
Proof.
  intros Hc Hd a b. destruct a as [|c' a]; cbn; intros Heq; injection Heq as ??.
  - congruence.
  - subst. by apply (Hd a b).
Qed.

Lemma colon_free_nil : forall a b, "" <> a +:+ String ":"%char b.
Proof. intros [|??] ?; discriminate. Qed.

Lemma pretty_N_char_not_colon (x : N) : pretty_N_char x <> ":"%char.
Proof. unfold pretty_N_char. repeat case_match; discriminate. Qed.

Lemma pretty_N_go_colon_free (x : N) (s : string) :
  (forall a b, s <> a +:+ String ":"%char b) ->
  forall a b, pretty_N_go x s <> a +:+ String ":"%char b.
Proof.
  revert s. induction x as [x IH] using (well_founded_induction N.lt_wf_0).
  intros s Hs. destruct (decide (x = 0%N)) as [->|Hx].
  - by rewrite pretty_N_go_0.
  - rewrite pretty_N_go_step by lia. apply IH.
    + apply N.div_lt; lia.
    + apply colon_free_cons; [apply pretty_N_char_not_colon | exact Hs].
Qed.

Lemma pretty_Z_colon_free (z : Z) : forall a b, pretty z <> a +:+ String ":"%char b.
Proof.
  assert (HN : forall p : positive, forall a b, pretty (N.pos p) <> a +:+ String ":"%char b).
  { intros p. unfold pretty, pretty_N. case_decide; [discriminate|].
    apply pretty_N_go_colon_free, colon_free_nil. }
  destruct z as [|p|p]; cbn [pretty pretty_Z].
  - apply colon_free_cons; [discriminate | apply colon_free_nil].
  - apply HN.
  - apply colon_free_cons; [discriminate | apply HN].
Qed.

Lemma split_at_last_colon (f1 f2 d1 d2 : string) :
  (forall a b, d1 <> a +:+ String ":"%char b) ->
  (forall a b, d2 <> a +:+ String ":"%char b) ->
  f1 +:+ String ":"%char d1 = f2 +:+ String ":"%char d2 -> f1 = f2 /\ d1 = d2.
Proof.
  revert f2. induction f1 as [|c f1 IH]; intros [|c' f2] H1 H2 Heq; cbn in Heq.
  - injection Heq as ->. auto.
  - injection Heq as <- Heq. by destruct (H1 f2 d2).
  - injection Heq as -> Heq. by destruct (H2 f1 d1).
  - injection Heq as <- Heq. destruct (IH f2 H1 H2 Heq) as [-> ->]. auto.
Qed.

(** The key [fmt.Sprintf("%s:%d", file, line)] that [Add] builds determines
    its call site: two [Add] calls share a [calls] entry only when they come
    from the same file and line. *)
Theorem key_of_inj (site1 site2 : call_site) (Heq : key_of site1 = key_of site2) :
  site1 = site2.
Proof.
  destruct site1 as [f1 l1], site2 as [f2 l2]. unfold key_of in Heq. cbn in Heq.
  destruct (split_at_last_colon f1 f2 (pretty l1) (pretty l2)
              (pretty_Z_colon_free l1) (pretty_Z_colon_free l2) Heq) as [-> Hl].
  apply (inj pretty) in Hl. by subst.
Qed.

Lemma key_of_inj_witness :
  key_of (mkSite "a:1" 2) = key_of (mkSite "a:1" 2) /\ mkSite "a:1" 2 = mkSite "a:1" 2.
Proof. split; [reflexivity | apply key_of_inj; reflexivity]. Defined.

(** ** Termination of the watcher goroutine *)

Lemma step_exit_after_return (s s' : Watcher.wstate) (e : Watcher.event) :
  Watcher.step s e = Some s' ->
  (Watcher.main s = Watcher.MReturned \/ Watcher.watcher s <> Watcher.WExited) ->
  (Watcher.main s' = Watcher.MReturned \/ Watcher.watcher s' <> Watcher.WExited).
Proof.
  destruct s as [p t m wt d]; cbn.
  destruct e; cbn; repeat case_match; intros Hs Hi; simplify_eq/=;
    intuition (try discriminate; try congruence).
Qed.

Lemma exec_exit_after_return (evs : list Watcher.event) (s s' : Watcher.wstate) :
  Watcher.exec s evs = Some s' ->
  (Watcher.main s = Watcher.MReturned \/ Watcher.watcher s <> Watcher.WExited) ->
  (Watcher.main s' = Watcher.MReturned \/ Watcher.watcher s' <> Watcher.WExited).
Proof.
  revert s. induction evs as [|e evs IH]; intros s Hx Hi.
  - cbn in Hx. by simplify_eq.
  - cbn in Hx. destruct (Watcher.step s e) as [s1|] eqn:Hs; [|discriminate].
    exact (IH s1 Hx (step_exit_after_return s s1 e Hs Hi)).
Qed.

(** The watcher goroutine of [Wait] returns only after [Wait] has closed
    [done]; and once [Wait] has returned, the watcher can always finish
    (it leaks no goroutine), at most with the one dump it may still make. *)
Theorem Wait_watcher_terminates (p : Z) (evs : list Watcher.event) (s : Watcher.wstate)
  (Hexec : Watcher.exec (Watcher.init p) evs = Some s) :
  (Watcher.watcher s = Watcher.WExited -> Watcher.main s = Watcher.MReturned) /\
  (Watcher.main s = Watcher.MReturned ->
   exists evs' s', Watcher.exec s evs' = Some s' /\
     Watcher.watcher s' = Watcher.WExited /\ Watcher.dumps s' = Watcher.dumps s).
Proof.
  split.
  - intros Hw. destruct (exec_exit_after_return evs _ s Hexec) as [|Hne];
      [right; discriminate | assumption | congruence].
  - destruct s as [p' t m wt d]; cbn. intros ->.
    destruct wt.
    + exists [Watcher.EStart; Watcher.ESelDone]. eexists. split; [reflexivity|]. auto.
    + exists [Watcher.ESelDone]. eexists. split; [reflexivity|]. auto.
    + exists []. eexists. split; [reflexivity|]. auto.
Qed.

Lemma Wait_watcher_terminates_witness :
  Watcher.exec (Watcher.init 1) [Watcher.EDone; Watcher.EWake]
    = Some (Watcher.mkW 0 Watcher.TNone Watcher.MReturned Watcher.WNotStarted 0) /\
  exists evs' s', Watcher.exec (Watcher.mkW 0 Watcher.TNone Watcher.MReturned Watcher.WNotStarted 0) evs'
    = Some s' /\ Watcher.watcher s' = Watcher.WExited /\ Watcher.dumps s' = 0%nat.
Proof.
  split; [reflexivity|].
  exact (proj2 (Wait_watcher_terminates 1 [Watcher.EDone; Watcher.EWake]
    (Watcher.mkW 0 Watcher.TNone Watcher.MReturned Watcher.WNotStarted 0) eq_refl) eq_refl).
Defined.

(** ** The counter against the [calls] map *)

Lemma calls_total_insert (c : gmap string Z) (k : string) (v : Z) :
  calls_total (<[k := v]> c) = v + calls_total (delete k c).
Proof.
  unfold calls_total. rewrite <- insert_delete_eq.
  rewrite map_fold_insert_L; [reflexivity | intros; lia | apply lookup_delete_eq].
Qed.

Lemma calls_total_split (c : gmap string Z) (k : string) :
  calls_total c = get0 c k + calls_total (delete k c).
Proof.
  destruct (c !! k) as [v|] eqn:Hk.
  - rewrite (get0_some _ _ _ Hk), <- calls_total_insert. by rewrite insert_id.
  - rewrite (get0_none _ _ Hk), delete_id by exact Hk. lia.
Qed.

Lemma calls_total_positive (c : gmap string Z) :
  0 < calls_total c -> exists k v, c !! k = Some v /\ 0 < v.
Proof.
  induction c as [|k v m Hk IH] using map_ind.
  - unfold calls_total. rewrite map_fold_empty. lia.
  - rewrite calls_total_insert, delete_id by exact Hk. intros Hpos.
    destruct (decide (0 < v)).
    + exists k, v. split; [apply lookup_insert_eq | assumption].
    + destruct IH as (k' & v' & Hk' & Hv'); [lia|].
      exists k', v'. split; [|assumption].
      rewrite lookup_insert_ne; [exact Hk' | congruence].
Qed.

Lemma calls_total_nonneg (c : gmap string Z) :
  (forall k v, c !! k = Some v -> 0 <= v) -> 0 <= calls_total c.
Proof.
  induction c as [|k v m Hk IH] using map_ind; intros Hc.
  - unfold calls_total. rewrite map_fold_empty. lia.
  - rewrite calls_total_insert, delete_id by exact Hk.
    assert (0 <= v) by (apply (Hc k); apply lookup_insert_eq).
    assert (0 <= calls_total m); [|lia].
    apply IH. intros k' v' Hk'. apply (Hc k').
    rewrite lookup_insert_ne; [exact Hk' | congruence].
Qed.

Lemma calls_entry_le_total (c : gmap string Z) (k : string) :
  (forall k v, c !! k = Some v -> 0 <= v) -> get0 c k <= calls_total c.
Proof.
  intros Hc. rewrite (calls_total_split c k).
  assert (0 <= calls_total (delete k c)); [|lia].
  apply calls_total_nonneg. intros k' v' Hk'.
  apply lookup_delete_Some in Hk' as [_ Hk']. exact (Hc k' v' Hk').
Qed.

Lemma get0_nonneg (c : gmap string Z) (k : string) :
  (forall k v, c !! k = Some v -> 0 <= v) -> 0 <= get0 c k.
Proof.
  intros Hc. unfold get0. destruct (c !! k) eqn:Hk; cbn; [exact (Hc _ _ Hk) | lia].
Qed.

Lemma Add_keeps_total (A : Z) (site : call_site) (i : Z) (s s' : world) (key : string) :
  0 <= i -> A + i <= int_max ->
  0 <= wg (w s) ->
  wg (w s) <= calls_total (calls (w s)) ->
  (forall k v, calls (w s) !! k = Some v -> 0 <= v) ->
  calls_total (calls (w s)) <= A ->
  Add site i s = Ok key s' ->
  0 <= wg (w s') <= int32_max /\
  wg (w s') <= calls_total (calls (w s')) /\
  (forall k v, calls (w s') !! k = Some v -> 0 <= v) /\
  calls_total (calls (w s')) <= A + i.
Proof.
  intros Hi HA Hwg0 Hwg Hc Htot Hadd.
  destruct (Add_cases site i s) as [[_ H] | [c [Hcv H]]]; rewrite H in Hadd; [discriminate|].
  injection Hadd as _ <-. cbn.
  pose proof (counter_add_range _ _ _ Hcv) as Hcr.
  pose proof (counter_add_le (wg (w s)) i c ltac:(lia) Hcv) as Hcle.
  pose proof (get0_nonneg _ (key_of site) Hc) as He0.
  pose proof (calls_entry_le_total _ (key_of site) Hc) as Hle.
  pose proof (calls_total_split (calls (w s)) (key_of site)) as Hsplit.
  rewrite wrap64_id by (unfold in_int, int_min, int_max in *; lia).
  rewrite calls_total_insert. split; [exact Hcr|]. split; [lia|]. split; [|lia].
  intros k v Hk. destruct (decide (k = key_of site)) as [->|Hne].
  - rewrite lookup_insert_eq in Hk. injection Hk as <-. lia.
  - rewrite lookup_insert_ne in Hk by congruence. exact (Hc _ _ Hk).
Qed.

Lemma Done_keeps_total (A : Z) (key : string) (s s' : world) :
  A <= int_max ->
  0 <= wg (w s) <= int32_max ->
  wg (w s) <= calls_total (calls (w s)) ->
  (forall k v, calls (w s) !! k = Some v -> 0 <= v) ->
  calls_total (calls (w s)) <= A ->
  Done key s = Ok tt s' ->
  0 <= wg (w s') <= int32_max /\
  wg (w s') <= calls_total (calls (w s')) /\
  (forall k v, calls (w s') !! k = Some v -> 0 <= v) /\
  calls_total (calls (w s')) <= A.
Proof.
  intros HA Hwg0 Hwg Hc Htot HD.
  assert (Hwg1 : 1 <= wg (w s) <= int32_max).
  { destruct (Done_cases key s) as [[_ H] | [c [Hcv _]]]; [congruence|].
    destruct (decide (wg (w s) = 0)) as [Hz|]; [|lia].
    rewrite Hz, counter_add_neg in Hcv by lia. discriminate. }
  destruct (calls (w s) !! key) as [v|] eqn:Hv.
  - rewrite (Done_present s key v Hv Hwg1) in HD. injection HD as <-. cbn.
    pose proof (Hc _ _ Hv) as Hv0.
    pose proof (calls_entry_le_total _ key Hc) as Hle.
    pose proof (calls_total_split (calls (w s)) key) as Hsplit.
    rewrite (get0_some _ _ _ Hv) in Hle, Hsplit.
    rewrite wrap64_id by (unfold in_int, int_min, int_max in *; lia).
    split; [lia|].
    case_decide.
    + rewrite delete_insert_eq. split; [lia|]. split; [|lia].
      intros k v' Hk. apply lookup_delete_Some in Hk as [_ Hk]. exact (Hc _ _ Hk).
    + rewrite calls_total_insert. split; [lia|]. split; [|lia].
      intros k v' Hk. destruct (decide (k = key)) as [->|Hne].
      * rewrite lookup_insert_eq in Hk. injection Hk as <-. lia.
      * rewrite lookup_insert_ne in Hk by congruence. exact (Hc _ _ Hk).
  - unfold Done, sync_Done in HD. rewrite bind_apply, sync_Add_spec in HD.
    rewrite counter_add_small in HD by lia. cbn in HD. rewrite Hv in HD.
    injection HD as <-. cbn. split; [lia|]. auto with lia.
Qed.

Lemma added_nonneg (ops : list op) :
  (forall site i, OpAdd site i ∈ ops -> 0 <= i) -> 0 <= added ops.
Proof.
  induction ops as [|[site i|key] ops IH]; intros Hpos; cbn; [lia| |].
  - assert (0 <= i) by (apply (Hpos site); left).
    assert (0 <= added ops); [|lia].
    apply IH. intros site' i' Hin. apply (Hpos site'). by right.
  - apply IH. intros site' i' Hin. apply (Hpos site'). by right.
Qed.

Lemma run_keeps_total (ops : list op) (A : Z) (s0 s : world) :
  (forall site i, OpAdd site i ∈ ops -> 0 <= i) -> A + added ops <= int_max ->
  0 <= wg (w s0) <= int32_max ->
  wg (w s0) <= calls_total (calls (w s0)) ->
  (forall k v, calls (w s0) !! k = Some v -> 0 <= v) ->
  calls_total (calls (w s0)) <= A ->
  run ops s0 = Ok tt s ->
  wg (w s) <= calls_total (calls (w s)) /\
  (forall k v, calls (w s) !! k = Some v -> 0 <= v) /\
  calls_total (calls (w s)) <= A + added ops.
Proof.
  revert A s0. induction ops as [|o ops IH]; intros A s0 Hpos HA Hwg0 Hwg Hc Htot Hr.
  - injection Hr as <-. cbn. auto with lia.
  - assert (Hpos' : forall site i, OpAdd site i ∈ ops -> 0 <= i)
      by (intros site' i' Hin; apply (Hpos site'); by right).
    pose proof (added_nonneg ops Hpos') as Hops.
    destruct o as [site i | key]; cbn [run] in Hr; rewrite bind_apply in Hr; cbn [added] in HA |- *.
    + assert (0 <= i) by (apply (Hpos site); left).
      destruct (Add site i s0) as [e|key s1] eqn:Hadd; [discriminate|].
      destruct (Add_keeps_total A site i s0 s1 key) as (H0 & H1 & H2 & H3); auto with lia.
      replace (A + (i + added ops)) with ((A + i) + added ops) by lia.
      apply (IH (A + i) s1); auto with lia.
    + destruct (Done key s0) as [e|[] s1] eqn:HD; [discriminate|].
      destruct (Done_keeps_total A key s0 s1) as (H0 & H1 & H2 & H3); auto with lia.
      apply (IH A s1); auto with lia.
Qed.

(** In a run from [New()] whose [Add] counts are non-negative and sum to at
    most the largest [int], the counter never exceeds the sum of the counts
    in [calls]. So whenever the counter is positive (a [Wait] would block),
    [calls] holds a site with a positive count, and [LogNotDone], whatever
    its iteration order, writes the line for that site. *)
Theorem blocked_Wait_has_outstanding_site (ops : list op) (s : world)
  (Hrun : run ops fresh = Ok tt s)
  (Hpos : forall site i, OpAdd site i ∈ ops -> 0 <= i)
  (Hmax : added ops <= int_max) :
  wg (w s) <= calls_total (calls (w s)) /\
  (0 < wg (w s) ->
   exists k v, calls (w s) !! k = Some v /\ 0 < v /\
     forall order, range_order (calls (w s)) order ->
       exists out, LogNotDone_in order s = Ok tt (mkWorld (w s) (logger s ++ out)) /\
         entry_line k v ∈ out).
Proof.
  destruct (run_keeps_total ops 0 fresh s) as (H1 & H2 & H3); auto with lia.
  - cbn. unfold int32_max. lia.
  - cbn. unfold calls_total. rewrite map_fold_empty. lia.
  - intros k v Hk. cbn in Hk. by rewrite lookup_empty in Hk.
  - cbn. unfold calls_total. rewrite map_fold_empty. lia.
  - split; [exact H1|]. intros Hwg.
    destruct (calls_total_positive (calls (w s))) as (k & v & Hk & Hv); [lia|].
    exists k, v. split; [exact Hk|]. split; [exact Hv|].
    intros order Hord.
    exists (header :: map (fun '(key, n) => entry_line key n) order). split.
    + apply LogNotDone_in_nonempty. intros Hempty. rewrite Hempty, lookup_empty in Hk. discriminate.
    + apply list_elem_of_In. right. apply in_map_iff. exists (k, v). split; [reflexivity|].
      apply list_elem_of_In. unfold range_order in Hord. rewrite Hord.
      by apply elem_of_map_to_list.
Qed.

Lemma blocked_Wait_has_outstanding_site_witness :
  wg (w (mkWorld (mkWaitGroup 1 {[ "main.go:10" := 1 ]}) [])) <=
    calls_total (calls (w (mkWorld (mkWaitGroup 1 {[ "main.go:10" := 1 ]}) []))).
Proof.
  apply (blocked_Wait_has_outstanding_site [OpAdd site0 2; OpDone "main.go:10"]).
  - vm_compute. reflexivity.
  - intros site i Hin. apply list_elem_of_In in Hin.
    destruct Hin as [Hin | [Hin | []]]; inversion Hin; lia.
  - unfold int_max. cbn. lia.
Defined.
